(** * The credential manager of libmachete (credentials.go)

    A shallow embedding of the credential manager: the process-wide registry
    of credential factories, the content-type selection of the codec, and
    the operations of the manager over a backing store.

    The packages [api] and [storage], the type [codec] and the variable
    [DefaultContentType] are declared outside credentials.go; they are taken
    here as parameters (type classes for the two interfaces, a record for
    [codec]).  The manager itself is embedded statement by statement in a
    state monad over the [World]: the store behind the manager, the package
    variables [credentialers] and [lock], and a chronological log of the
    calls the manager makes to its collaborators. *)

From Stdlib Require Import ZArith String List.
From stdpp Require Import base gmap strings.

Local Open Scope Z_scope.
Local Open Scope string_scope.
Local Open Scope list_scope.

(** ** Go data *)

(** [[]byte]. *)
Definition bytes : Type := list Byte.byte.

(** A Go [error] is used by credentials.go only through [err.Error()] and
    the test [err != nil]: it is its message. *)
Definition error : Type := string.

(** A Go result pair [(v, err)]: either the value, or the non-nil error. *)
Inductive result (A : Type) : Type :=
| Ok (v : A)
| Failed (err : error).
Arguments Ok {A} v.
Arguments Failed {A} err.

(** [storage.CredentialsID], a named string type; [CredentialsID_of key] is the
    conversion [storage.CredentialsID(key)] and [string_of_id i] is
    [string(i)]. *)
Record CredentialsID : Type := CredentialsID_of { string_of_id : string }.

(** [io.Reader]: what successive [Read] calls deliver. *)
Inductive Reader : Type :=
| EOF
| Chunk (p : bytes) (rest : Reader)
| ReadErr (err : error).

(** [ioutil.ReadAll]: reads until EOF or the first error. *)
Fixpoint ioutil_ReadAll (r : Reader) : result bytes :=
  match r with
  | EOF => Ok []
  | Chunk p rest =>
      match ioutil_ReadAll rest with
      | Ok b => Ok (p ++ b)
      | Failed err => Failed err
      end
  | ReadErr err => Failed err
  end.

(** ** The error type of the manager *)

(** [const ( ErrCredentialDuplicate int = iota; ErrCredentialNotFound )]. *)
Definition ErrCredentialDuplicate : Z := 0.
Definition ErrCredentialNotFound : Z := 1.

Record CredentialError : Type := {
  Code : Z;
  Message : string;
}.

(** [func (e CredentialError) Error() string]. *)
Definition CredentialError_Error (e : CredentialError) : string := Message e.

(** The composite literal [CredentialError{Message: m}]: the field [Code] is
    not given and holds Go's zero value of [int]. *)
Definition CredentialError_Message_only (m : string) : CredentialError :=
  {| Code := 0; Message := m |}.

(** ** The collaborators, as parameters *)

(** [api.Credential] (an interface) with [api.CredentialBase], the shape that
    holds the provisioner name only.  [new_CredentialBase] is
    [new(api.CredentialBase)]. *)
Class CredentialApi (Credential : Type) : Type := {
  ProvisionerName : Credential -> string;
  new_CredentialBase : Credential;
}.

(** [codec]: a content type with its two functions.  [unmarshal data cred]
    fills [cred] in place in Go; here it returns the filled value. *)
Record codec (Credential : Type) : Type := {
  marshal : Credential -> result bytes;
  unmarshal : bytes -> Credential -> result Credential;
}.
Arguments marshal {Credential} _ _.
Arguments unmarshal {Credential} _ _ _.

(** The package variable [DefaultContentType]. *)
Class ContentTypes (Credential : Type) : Type := {
  DefaultContentType : codec Credential;
}.

(** [storage.Credentials] (an interface), over the state [S] of the store.
    Every method may change the store; [GetCredentials id target] fills
    [target] in place in Go and returns the filled value here. *)
Class StorageCredentials (Credential S : Type) : Type := {
  store_List : S -> result (list CredentialsID) * S;
  store_Save : CredentialsID -> Credential -> S -> option error * S;
  store_GetCredentials : CredentialsID -> Credential -> S -> result Credential * S;
  store_Delete : CredentialsID -> S -> option error * S;
}.

(** ** The world and the monad of the manager *)

(** The calls credentials.go makes to what lies outside it, and its accesses
    to the package variables. *)
Inductive Event (Credential : Type) : Type :=
| EvLock
| EvUnlock
| EvMapWrite (provisionerName : string)
| EvMapRead (provisionerName : string)
| EvStoreList
| EvStoreSave (id : CredentialsID) (cred : Credential)
| EvStoreGet (id : CredentialsID) (target : Credential)
| EvStoreDelete (id : CredentialsID)
| EvReadAll
| EvUnmarshal (data : bytes) (target : Credential)
| EvMarshal (cred : Credential).
Arguments EvLock {Credential}.
Arguments EvUnlock {Credential}.
Arguments EvMapWrite {Credential} _.
Arguments EvMapRead {Credential} _.
Arguments EvStoreList {Credential}.
Arguments EvStoreSave {Credential} _ _.
Arguments EvStoreGet {Credential} _ _.
Arguments EvStoreDelete {Credential} _.
Arguments EvReadAll {Credential}.
Arguments EvUnmarshal {Credential} _ _.
Arguments EvMarshal {Credential} _.

(** [store] is the field of the struct [credentials]; [credentialers] and
    [lock] are the package variables ([lock] is true while the mutex is
    held); [trace] lists the events so far, oldest first. *)
Record World (Credential S : Type) : Type := {
  store : S;
  credentialers : gmap string (unit -> Credential);
  lock : bool;
  trace : list (Event Credential);
}.
Arguments store {Credential S} _.
Arguments credentialers {Credential S} _.
Arguments lock {Credential S} _.
Arguments trace {Credential S} _.

Definition M (Credential S A : Type) : Type :=
  World Credential S -> A * World Credential S.

Definition ret {Credential S A : Type} (a : A) : M Credential S A :=
  fun w => (a, w).

Definition bind {Credential S A B : Type}
    (c : M Credential S A) (k : A -> M Credential S B) : M Credential S B :=
  fun w => let (a, w1) := c w in k a w1.

Notation "x <- c ;; k" := (bind c (fun x => k))
  (at level 100, c at next level, right associativity).

Section Manager.
Context {Credential S : Type}.
Context `{!CredentialApi Credential, !ContentTypes Credential,
          !StorageCredentials Credential S}.

Local Abbreviation World := (World Credential S).
Local Abbreviation M := (M Credential S).
Local Abbreviation codec := (codec Credential).

(** Appends one event to the log. *)
Definition emit (e : Event Credential) : M unit :=
  fun w => (tt, {| store := store w; credentialers := credentialers w;
                   lock := lock w; trace := trace w ++ [e] |}).

(** A call of a method of [cm.store]. *)
Definition store_call {A : Type} (e : Event Credential) (f : S -> A * S) : M A :=
  _ <- emit e ;;
  fun w => let (a, s) := f (store w) in
           (a, {| store := s; credentialers := credentialers w;
                  lock := lock w; trace := trace w |}).

(** [lock.Lock()]: on a held mutex the caller blocks, and there is no
    next world. *)
Definition lock_Lock (w : World) : option World :=
  if lock w then None
  else Some {| store := store w; credentialers := credentialers w;
               lock := true; trace := trace w ++ [EvLock] |}.

(** [lock.Unlock()]: unlocking a mutex that is not held is a fatal
    error. *)
Definition lock_Unlock (w : World) : option World :=
  if lock w
  then Some {| store := store w; credentialers := credentialers w;
               lock := false; trace := trace w ++ [EvUnlock] |}
  else None.

(** [credentialers[provisionerName] = f]. *)
Definition credentialers_assign (provisionerName : string)
    (f : unit -> Credential) (w : World) : World :=
  {| store := store w;
     credentialers := <[provisionerName := f]> (credentialers w);
     lock := lock w; trace := trace w ++ [EvMapWrite provisionerName] |}.

(** [func RegisterCredentialer(provisionerName string, f func() api.Credential)];
    the deferred [Unlock] runs when the function returns. *)
Definition RegisterCredentialer (provisionerName : string)
    (f : unit -> Credential) (w : World) : option World :=
  match lock_Lock w with
  | None => None
  | Some w1 => lock_Unlock (credentialers_assign provisionerName f w1)
  end.

(** [func NewCredentials(store storage.Credentials) Credentials]: the
    manager [&credentials{store: store}].  The struct has the one field
    [store]; the package variables are not touched. *)
Definition NewCredentials (store0 : S) (w : World) : World :=
  {| store := store0; credentialers := credentialers w;
     lock := lock w; trace := trace w |}.

(** [func ensureValidCredentialContentType(ct *codec) *codec]; a nil
    pointer is [None]. *)
Definition ensureValidCredentialContentType (ct : option codec) : codec :=
  match ct with
  | Some c => c
  | None => DefaultContentType
  end.

(** [func (cm *credentials) NewCredential]. *)
Definition NewCredential (provisionerName : string) : M (result Credential) :=
  _ <- emit (EvMapRead provisionerName) ;;
  fun w =>
    match credentialers w !! provisionerName with
    | Some c => (Ok (c tt), w)
    | None => (Failed ("Unknown provisioner: " +:+ provisionerName), w)
    end.

(** [func (cm *credentials) Unmarshal]. *)
Definition Unmarshal (contentType : option codec) (data : bytes)
    (cred : Credential) : M (result Credential) :=
  _ <- emit (EvUnmarshal data cred) ;;
  ret (unmarshal (ensureValidCredentialContentType contentType) data cred).

(** [func (cm *credentials) Marshal]. *)
Definition Marshal (contentType : option codec) (cred : Credential)
    : M (result bytes) :=
  _ <- emit (EvMarshal cred) ;;
  ret (marshal (ensureValidCredentialContentType contentType) cred).

(** The loop [for _, i := range list { out = append(out, string(i)) }];
    [ids] is the Go variable [list]. *)
Fixpoint ListIds_loop (out : list string) (ids : list CredentialsID)
    : list string :=
  match ids with
  | [] => out
  | i :: rest => ListIds_loop (out ++ [string_of_id i]) rest
  end.

(** [func (cm *credentials) ListIds]. *)
Definition ListIds : M (result (list string)) :=
  r <- store_call EvStoreList store_List ;;
  match r with
  | Failed err => ret (Failed err)
  | Ok ids => ret (Ok (ListIds_loop [] ids))
  end.

(** [func (cm *credentials) Save]. *)
Definition Save (key : string) (cred : Credential) : M (option error) :=
  store_call (EvStoreSave (CredentialsID_of key) cred)
             (store_Save (CredentialsID_of key) cred).

(** [func (cm *credentials) Get]. *)
Definition Get (key : string) : M (result Credential) :=
  let base := new_CredentialBase in
  r <- store_call (EvStoreGet (CredentialsID_of key) base)
                  (store_GetCredentials (CredentialsID_of key) base) ;;
  match r with
  | Failed err => ret (Failed err)
  | Ok base =>
      n <- NewCredential (ProvisionerName base) ;;
      match n with
      | Failed err => ret (Failed err)
      | Ok detail =>
          r2 <- store_call (EvStoreGet (CredentialsID_of key) detail)
                           (store_GetCredentials (CredentialsID_of key) detail) ;;
          match r2 with
          | Failed err => ret (Failed err)
          | Ok detail => ret (Ok detail)
          end
      end
  end.

(** [func (cm *credentials) Delete]. *)
Definition Delete (key : string) : M (option error) :=
  store_call (EvStoreDelete (CredentialsID_of key))
             (store_Delete (CredentialsID_of key)).

(** [func (cm *credentials) Exists]. *)
Definition Exists (key : string) : M bool :=
  let base := new_CredentialBase in
  r <- store_call (EvStoreGet (CredentialsID_of key) base)
                  (store_GetCredentials (CredentialsID_of key) base) ;;
  match r with
  | Ok _ => ret true
  | Failed _ => ret false
  end.

(** [ioutil.ReadAll(input)] as a call of the manager. *)
Definition ReadAll (input : Reader) : M (result bytes) :=
  _ <- emit EvReadAll ;;
  ret (ioutil_ReadAll input).

(** [func (c *credentials) CreateCredential]; the result is the pointer
    [*CredentialError], nil being [None]. *)
Definition CreateCredential (provisioner key : string) (input : Reader)
    (codec : option codec) : M (option CredentialError) :=
  ex <- Exists key ;;
  if ex : bool then
    ret (Some {| Code := ErrCredentialDuplicate;
                 Message := "Key exists: " +:+ key |})
  else
    n <- NewCredential provisioner ;;
    match n with
    | Failed _ =>
        ret (Some {| Code := ErrCredentialNotFound;
                     Message := "Unknown provisioner:" +:+ provisioner |})
    | Ok cr =>
        b <- ReadAll input ;;
        match b with
        | Failed err => ret (Some (CredentialError_Message_only err))
        | Ok buff =>
            u <- Unmarshal codec buff cr ;;
            match u with
            | Failed err => ret (Some (CredentialError_Message_only err))
            | Ok cr =>
                s <- Save key cr ;;
                match s with
                | Some err => ret (Some (CredentialError_Message_only err))
                | None => ret None
                end
            end
        end
    end.

(** [func (c *credentials) UpdateCredential]. *)
Definition UpdateCredential (key : string) (input : Reader)
    (codec : option codec) : M (option CredentialError) :=
  ex <- Exists key ;;
  if negb ex then
    ret (Some {| Code := ErrCredentialNotFound;
                 Message := "Credential not found: " +:+ key |})
  else
    b <- ReadAll input ;;
    match b with
    | Failed err => ret (Some (CredentialError_Message_only err))
    | Ok buff =>
        let base := new_CredentialBase in
        u <- Unmarshal codec buff base ;;
        match u with
        | Failed err => ret (Some (CredentialError_Message_only err))
        | Ok base =>
            n <- NewCredential (ProvisionerName base) ;;
            match n with
            | Failed _ =>
                ret (Some {| Code := ErrCredentialNotFound;
                             Message := "Unknow provisioner: "
                                        +:+ ProvisionerName base |})
            | Ok detail =>
                u2 <- Unmarshal codec buff detail ;;
                match u2 with
                | Failed err => ret (Some (CredentialError_Message_only err))
                | Ok detail =>
                    s <- Save key detail ;;
                    match s with
                    | Some err => ret (Some (CredentialError_Message_only err))
                    | None => ret None
                    end
                end
            end
        end
    end.

End Manager.

(** ** What the theorems say about a world *)

(** [stepped w s es]: the world [w] after the events [es], which left the
    store as [s]; the registry and the lock are those of [w]. *)
Definition stepped {Credential S : Type} (w : World Credential S) (s : S)
    (es : list (Event Credential)) : World Credential S :=
  {| store := s; credentialers := credentialers w;
     lock := lock w; trace := trace w ++ es |}.

(** [logged w es]: the world [w] after the events [es] and nothing else: the
    same store, the same registry, the same lock. *)
Definition logged {Credential S : Type} (w : World Credential S)
    (es : list (Event Credential)) : World Credential S :=
  stepped w (store w) es.

(** [preserves_credentialers c]: running [c] leaves the map [credentialers]
    as it found it. *)
Definition preserves_credentialers {Credential S A : Type}
    (c : M Credential S A) : Prop :=
  forall w, credentialers (snd (c w)) = credentialers w.

(** [emits P c]: whatever the world, running [c] changes it by a store and
    by events that all satisfy [P]; the registry and the lock stay. *)
Definition emits {Credential S A : Type} (P : Event Credential -> Prop)
    (c : M Credential S A) : Prop :=
  forall w, exists s es, snd (c w) = stepped w s es /\ Forall P es.

(** An event of an operation on [key]: a store call on that key, a lookup
    in the registry, a read of the input or a call of the codec; not a
    listing of the store, not a write of the registry, not a use of the
    mutex. *)
Definition about_key {Credential : Type} (key : string)
    (e : Event Credential) : Prop :=
  match e with
  | EvStoreSave id _ | EvStoreGet id _ | EvStoreDelete id =>
      id = CredentialsID_of key
  | EvMapRead _ | EvReadAll | EvUnmarshal _ _ | EvMarshal _ => True
  | EvStoreList | EvMapWrite _ | EvLock | EvUnlock => False
  end.

(** An event that writes nothing: neither to the store, nor to the
    registry, nor to the mutex. *)
Definition writes_nothing {Credential : Type} (e : Event Credential) : Prop :=
  match e with
  | EvStoreSave _ _ | EvStoreDelete _ | EvMapWrite _ | EvLock | EvUnlock => False
  | EvStoreGet _ _ | EvStoreList | EvMapRead _ | EvReadAll
  | EvUnmarshal _ _ | EvMarshal _ => True
  end.

(** The store writes among some events. *)
Definition is_store_write {Credential : Type} (e : Event Credential) : bool :=
  match e with
  | EvStoreSave _ _ | EvStoreDelete _ => true
  | _ => false
  end.

(** A store whose [GetCredentials] is a query: it answers and leaves the
    store as it was. *)
Class QueryStore (Credential S : Type)
    `{!StorageCredentials Credential S} : Prop :=
  GetCredentials_query :
    forall (id : CredentialsID) (target : Credential) (s : S),
      snd (store_GetCredentials id target s) = s.

(** A store in which a record that [Save] accepted can be read back into the
    base shape. *)
Class SaveVisible (Credential S : Type)
    `{!CredentialApi Credential, !StorageCredentials Credential S} : Prop :=
  Save_then_GetCredentials :
    forall (id : CredentialsID) (cred : Credential) (s s' : S),
      store_Save id cred s = (None, s') ->
      exists base, fst (store_GetCredentials id new_CredentialBase s') = Ok base.

(** ** An in-memory store and a one-line codec

    A small instance of the collaborators on which the manager can be run:
    credentials with a shape (the Go type: "base", or the type of a
    provisioner), a provisioner name and a body; a wire format
    [name ":" body]; a store that keeps the encoded record of each key. *)
Module Mem.

Record Cred : Type := {
  shape : string;
  provisioner : string;
  body : bytes;
}.

Definition base : Cred := {| shape := "base"; provisioner := ""; body := [] |}.

(** The empty credential a provisioner's factory allocates. *)
Definition empty (shape : string) (_ : unit) : Cred :=
  {| shape := shape; provisioner := ""; body := [] |}.

Definition colon : Byte.byte := Byte.x3a.

Fixpoint split_colon (data : bytes) : option (bytes * bytes) :=
  match data with
  | [] => None
  | c :: rest =>
      if Byte.eqb c colon then Some ([], rest)
      else match split_colon rest with
           | Some (name, b) => Some (c :: name, b)
           | None => None
           end
  end.

Definition encode (c : Cred) : bytes :=
  list_byte_of_string (provisioner c) ++ colon :: body c.

(** Decoding fills the provisioner name of any shape, and the body of every
    shape but the base one. *)
Definition decode (data : bytes) (target : Cred) : result Cred :=
  match split_colon data with
  | None => Failed "malformed payload"
  | Some (name, b) =>
      Ok {| shape := shape target;
            provisioner := string_of_list_byte name;
            body := if String.eqb (shape target) "base" then [] else b |}
  end.

Definition line : codec Cred :=
  {| marshal := fun c => Ok (encode c); unmarshal := decode |}.

(** A codec that refuses every payload, with a message of its own. *)
Definition refusing (msg : string) : codec Cred :=
  {| marshal := fun _ => Failed msg; unmarshal := fun _ _ => Failed msg |}.

#[global] Instance api : CredentialApi Cred :=
  {| ProvisionerName := provisioner; new_CredentialBase := base |}.

#[global] Instance contentTypes : ContentTypes Cred :=
  {| DefaultContentType := line |}.

#[global] Instance storage : StorageCredentials Cred (gmap string bytes) :=
  {| store_List := fun s =>
       (Ok (map (fun kv => CredentialsID_of (fst kv)) (map_to_list s)), s);
     store_Save := fun id cred s =>
       (None, <[string_of_id id := encode cred]> s);
     store_GetCredentials := fun id target s =>
       (match s !! string_of_id id with
        | Some data => decode data target
        | None => Failed "no such credential"
        end, s);
     store_Delete := fun id s =>
       match s !! string_of_id id with
       | Some _ => (None, delete (string_of_id id) s)
       | None => (Some "no such credential", s)
       end |}.

Definition nothing : World Cred (gmap string bytes) :=
  {| store := ∅; credentialers := ∅; lock := false; trace := [] |}.

(** The world once the provisioners "aws" and "azure" have registered,
    with the log started afresh. *)
Definition w0 : World Cred (gmap string bytes) :=
  match RegisterCredentialer "aws" (empty "aws") nothing with
  | Some w =>
      match RegisterCredentialer "azure" (empty "azure") w with
      | Some w' => {| store := store w'; credentialers := credentialers w';
                      lock := lock w'; trace := [] |}
      | None => nothing
      end
  | None => nothing
  end.

Definition payload (s : string) : Reader := Chunk (list_byte_of_string s) EOF.

(** [w0] after [CreateCredential("aws", "k1", "aws:AB", nil)]. *)
Definition w1 : World Cred (gmap string bytes) :=
  snd (CreateCredential "aws" "k1" (payload "aws:AB") None w0).

End Mem.

(** * Properties of the manager *)

Section Properties.
Context {Credential S : Type}.
Context `{!CredentialApi Credential, !ContentTypes Credential,
          !StorageCredentials Credential S}.

Local Abbreviation World := (World Credential S).
Local Abbreviation M := (M Credential S).
Local Abbreviation codec := (codec Credential).

(** ** Running the monad *)

Lemma bind_run {A B : Type} (c : M A) (k : A -> M B) (w : World) :
  (x <- c ;; k x) w = k (fst (c w)) (snd (c w)).
Proof. unfold bind. destruct (c w); reflexivity. Qed.

Lemma emit_run (e : Event Credential) (w : World) :
  emit e w = (tt, logged w [e]).
Proof. reflexivity. Qed.

Lemma store_call_run {A : Type} (e : Event Credential) (f : S -> A * S)
    (w : World) :
  store_call e f w = (fst (f (store w)), stepped w (snd (f (store w))) [e]).
Proof.
  unfold store_call, bind, emit, stepped; simpl.
  destruct (f (store w)); reflexivity.
Qed.

Lemma stepped_stepped (w : World) (s s' : S) (es es' : list (Event Credential)) :
  stepped (stepped w s es) s' es' = stepped w s' (es ++ es').
Proof. unfold stepped; simpl. by rewrite app_assoc. Qed.

Lemma stepped_logged (w : World) (s : S) (es es' : list (Event Credential)) :
  logged (stepped w s es) es' = stepped w s (es ++ es').
Proof. unfold logged. apply stepped_stepped. Qed.

Lemma NewCredential_run (provisionerName : string) (w : World) :
  NewCredential provisionerName w =
    (match credentialers w !! provisionerName with
     | Some c => Ok (c tt)
     | None => Failed ("Unknown provisioner: " +:+ provisionerName)
     end, logged w [EvMapRead provisionerName]).
Proof.
  unfold NewCredential. rewrite bind_run, emit_run; simpl.
  destruct (credentialers w !! provisionerName); reflexivity.
Qed.

Lemma Exists_run (key : string) (w : World) :
  let r := store_GetCredentials (CredentialsID_of key) new_CredentialBase (store w) in
  Exists key w =
    (match fst r with Ok _ => true | Failed _ => false end,
     stepped w (snd r) [EvStoreGet (CredentialsID_of key) new_CredentialBase]).
Proof.
  simpl. unfold Exists. rewrite bind_run, store_call_run; simpl.
  destruct (fst _); reflexivity.
Qed.

Lemma Unmarshal_run (contentType : option codec) (data : bytes)
    (cred : Credential) (w : World) :
  Unmarshal contentType data cred w =
    (unmarshal (ensureValidCredentialContentType contentType) data cred,
     logged w [EvUnmarshal data cred]).
Proof. reflexivity. Qed.

Lemma ReadAll_run (input : Reader) (w : World) :
  ReadAll input w = (ioutil_ReadAll input, logged w [EvReadAll]).
Proof. reflexivity. Qed.

Lemma Save_run (key : string) (cred : Credential) (w : World) :
  let r := store_Save (CredentialsID_of key) cred (store w) in
  Save key cred w =
    (fst r, stepped w (snd r) [EvStoreSave (CredentialsID_of key) cred]).
Proof. simpl. unfold Save. apply store_call_run. Qed.

(** ** The registry is read, never written *)

Lemma preserves_ret {A : Type} (a : A) :
  preserves_credentialers (ret a : M A).
Proof. intros w; reflexivity. Qed.

Lemma preserves_bind {A B : Type} (c : M A) (k : A -> M B) :
  preserves_credentialers c ->
  (forall a, preserves_credentialers (k a)) ->
  preserves_credentialers (x <- c ;; k x).
Proof.
  intros Hc Hk w. rewrite bind_run, Hk. apply Hc.
Qed.

Lemma preserves_emit (e : Event Credential) :
  preserves_credentialers (emit e : M unit).
Proof. intros w; reflexivity. Qed.

Lemma preserves_store_call {A : Type} (e : Event Credential) (f : S -> A * S) :
  preserves_credentialers (store_call e f).
Proof. intros w. rewrite store_call_run. reflexivity. Qed.

Lemma preserves_NewCredential (provisionerName : string) :
  preserves_credentialers (NewCredential provisionerName : M _).
Proof. intros w. rewrite NewCredential_run. reflexivity. Qed.

Create HintDb frame.
#[local] Hint Resolve preserves_ret preserves_emit preserves_store_call
  preserves_NewCredential : frame.

Ltac frame :=
  repeat first
    [ progress auto with frame
    | apply preserves_bind; [ | intros ? ]
    | match goal with
      | |- preserves_credentialers (match ?x with _ => _ end) => destruct x
      | |- preserves_credentialers (if ?x then _ else _) => destruct x
      end ].

Lemma preserves_Unmarshal (contentType : option codec) (data : bytes)
    (cred : Credential) :
  preserves_credentialers (Unmarshal contentType data cred : M _).
Proof. unfold Unmarshal. frame. Qed.

Lemma preserves_Marshal (contentType : option codec) (cred : Credential) :
  preserves_credentialers (Marshal contentType cred : M _).
Proof. unfold Marshal. frame. Qed.

Lemma preserves_Exists (key : string) :
  preserves_credentialers (Exists key).
Proof. unfold Exists. frame. Qed.

Lemma preserves_Save (key : string) (cred : Credential) :
  preserves_credentialers (Save key cred).
Proof. unfold Save. frame. Qed.

Lemma preserves_ReadAll (input : Reader) :
  preserves_credentialers (ReadAll input : M _).
Proof. unfold ReadAll. frame. Qed.

#[local] Hint Resolve preserves_Unmarshal preserves_Marshal preserves_Exists
  preserves_Save preserves_ReadAll : frame.

Lemma preserves_Get (key : string) : preserves_credentialers (Get key).
Proof. unfold Get. frame. Qed.

Lemma preserves_Delete (key : string) : preserves_credentialers (Delete key).
Proof. unfold Delete. frame. Qed.

Lemma preserves_ListIds : preserves_credentialers ListIds.
Proof. unfold ListIds. frame. Qed.

Lemma preserves_CreateCredential (provisioner key : string) (input : Reader)
    (codec : option codec) :
  preserves_credentialers (CreateCredential provisioner key input codec).
Proof. unfold CreateCredential. frame. Qed.

Lemma preserves_UpdateCredential (key : string) (input : Reader)
    (codec : option codec) :
  preserves_credentialers (UpdateCredential key input codec).
Proof. unfold UpdateCredential. frame. Qed.

(** C9. Every operation of the manager leaves the registry map
    [credentialers] unchanged: NewCredential, Get, Exists, CreateCredential,
    UpdateCredential, Save, Delete, ListIds, Marshal and Unmarshal read it at
    most; none adds, removes or replaces an entry. *)
Theorem manager_never_writes_credentialers (w : World) :
  (forall provisionerName,
      credentialers (snd (NewCredential provisionerName w)) = credentialers w) /\
  (forall key, credentialers (snd (Get key w)) = credentialers w) /\
  (forall key, credentialers (snd (Exists key w)) = credentialers w) /\
  (forall provisioner key input codec,
      credentialers (snd (CreateCredential provisioner key input codec w))
      = credentialers w) /\
  (forall key input codec,
      credentialers (snd (UpdateCredential key input codec w))
      = credentialers w) /\
  (forall key cred, credentialers (snd (Save key cred w)) = credentialers w) /\
  (forall key, credentialers (snd (Delete key w)) = credentialers w) /\
  credentialers (snd (ListIds w)) = credentialers w /\
  (forall contentType cred,
      credentialers (snd (Marshal contentType cred w)) = credentialers w) /\
  (forall contentType data cred,
      credentialers (snd (Unmarshal contentType data cred w)) = credentialers w).
Proof.
  repeat apply conj; intros.
  - apply preserves_NewCredential.
  - apply preserves_Get.
  - apply preserves_Exists.
  - apply preserves_CreateCredential.
  - apply preserves_UpdateCredential.
  - apply preserves_Save.
  - apply preserves_Delete.
  - apply preserves_ListIds.
  - apply preserves_Marshal.
  - apply preserves_Unmarshal.
Qed.

(** ** Get: the two reads *)

(** C1. Get reads the record at the key into the base shape, resolves a
    concrete credential from the registry by the provisioner name of that
    base, and reads the same key again into the concrete credential, whose
    result it returns.  When the first read fails Get returns that error and
    does nothing more; when the registry has no factory for the name Get
    returns the unknown-provisioner error of NewCredential and does not read
    again; when the second read fails Get returns that error. *)
Theorem Get_two_phase (key : string) (w : World) :
  let id := CredentialsID_of key in
  let base0 := new_CredentialBase in
  (forall err s1,
      store_GetCredentials id base0 (store w) = (Failed err, s1) ->
      Get key w = (Failed err, stepped w s1 [EvStoreGet id base0])) /\
  (forall base s1,
      store_GetCredentials id base0 (store w) = (Ok base, s1) ->
      (credentialers w !! ProvisionerName base = None ->
       Get key w =
         (fst (NewCredential (ProvisionerName base) w),
          stepped w s1 [EvStoreGet id base0; EvMapRead (ProvisionerName base)])
       /\ fst (NewCredential (ProvisionerName base) w) =
            Failed ("Unknown provisioner: " +:+ ProvisionerName base)) /\
      (forall f, credentialers w !! ProvisionerName base = Some f ->
       (forall err s2,
           store_GetCredentials id (f tt) s1 = (Failed err, s2) ->
           Get key w =
             (Failed err,
              stepped w s2 [EvStoreGet id base0;
                            EvMapRead (ProvisionerName base);
                            EvStoreGet id (f tt)])) /\
       (forall detail s2,
           store_GetCredentials id (f tt) s1 = (Ok detail, s2) ->
           Get key w =
             (Ok detail,
              stepped w s2 [EvStoreGet id base0;
                            EvMapRead (ProvisionerName base);
                            EvStoreGet id (f tt)])))).
Proof.
  intros id base0. split.
  - intros err s1 H1. unfold Get. fold id base0.
    rewrite bind_run, store_call_run, H1. reflexivity.
  - intros base s1 H1. split.
    + intros Hnone. rewrite NewCredential_run, Hnone. split; [ | reflexivity ].
      unfold Get. fold id base0.
      rewrite bind_run, store_call_run, H1; simpl.
      rewrite bind_run, NewCredential_run; simpl. rewrite Hnone; simpl.
      unfold ret. by rewrite stepped_logged.
    + intros f Hf.
      assert (Hget : forall r2 s2,
                 store_GetCredentials id (f tt) s1 = (r2, s2) ->
                 Get key w =
                   (r2, stepped w s2 [EvStoreGet id base0;
                                      EvMapRead (ProvisionerName base);
                                      EvStoreGet id (f tt)])).
      { intros r2 s2 H2. unfold Get. fold id base0.
        rewrite bind_run, store_call_run, H1; simpl.
        rewrite bind_run, NewCredential_run; simpl. rewrite Hf; simpl.
        rewrite bind_run, store_call_run; simpl. rewrite H2; simpl.
        rewrite stepped_logged, stepped_stepped; simpl.
        destruct r2; reflexivity. }
      split; intros; by apply Hget.
Qed.

(** ** The content type *)

(** C8. Marshal and Unmarshal called with a nil content type are the same
    calls as with the default codec: the nil selector is replaced by
    [DefaultContentType] before the codec's function is called. *)
Theorem nil_content_type_is_default (data : bytes) (cred : Credential) :
  ensureValidCredentialContentType None = DefaultContentType /\
  (forall w : World,
      Unmarshal None data cred w = Unmarshal (Some DefaultContentType) data cred w
      /\ fst (Unmarshal None data cred w) = unmarshal DefaultContentType data cred) /\
  (forall w : World,
      Marshal None cred w = Marshal (Some DefaultContentType) cred w
      /\ fst (Marshal None cred w) = marshal DefaultContentType cred).
Proof.
  split; [ reflexivity | ].
  split; intros w; split; reflexivity.
Qed.

(** ** The lock *)

Lemma RegisterCredentialer_run (provisionerName : string)
    (f : unit -> Credential) (w : World) :
  lock w = false ->
  RegisterCredentialer provisionerName f w =
    Some {| store := store w;
            credentialers := <[provisionerName := f]> (credentialers w);
            lock := false;
            trace := trace w ++ [EvLock; EvMapWrite provisionerName; EvUnlock] |}.
Proof.
  intros Hfree. unfold RegisterCredentialer, lock_Lock. rewrite Hfree.
  unfold credentialers_assign, lock_Unlock; simpl.
  by rewrite <- !app_assoc.
Qed.

(** C7, as the code has it. NewCredential reads the map [credentialers]
    without touching the mutex: its only event is the map read, and the
    lock is as it was; RegisterCredentialer, from a free mutex, brackets
    its map write between Lock and Unlock. *)
Theorem NewCredential_takes_no_lock (provisionerName : string) (w : World) :
  snd (NewCredential provisionerName w) = logged w [EvMapRead provisionerName]
  /\ forall f : unit -> Credential,
       lock w = false ->
       exists w',
         RegisterCredentialer provisionerName f w = Some w'
         /\ trace w' = trace w ++ [EvLock; EvMapWrite provisionerName; EvUnlock].
Proof.
  rewrite NewCredential_run; simpl. split; [ reflexivity | ].
  intros f Hfree. rewrite RegisterCredentialer_run by exact Hfree.
  eexists; split; reflexivity.
Qed.

(** ** Create and update: the guards *)

Section Query.
Context `{!QueryStore Credential S}.

Lemma Exists_query (key : string) (w : World) :
  snd (Exists key w)
  = logged w [EvStoreGet (CredentialsID_of key) new_CredentialBase].
Proof.
  rewrite Exists_run; simpl. by rewrite GetCredentials_query.
Qed.

Lemma CreateCredential_on_existing (provisioner key : string) (input : Reader)
    (codec : option codec) (w : World) :
  fst (Exists key w) = true ->
  CreateCredential provisioner key input codec w =
    (Some {| Code := ErrCredentialDuplicate;
             Message := "Key exists: " +:+ key |},
     logged w [EvStoreGet (CredentialsID_of key) new_CredentialBase]).
Proof.
  intros Hex. unfold CreateCredential.
  rewrite bind_run, Hex, Exists_query. reflexivity.
Qed.

(** A create that returned nil ended with a Save that the store accepted,
    and the store of the world it leaves is the one that Save left. *)
Lemma CreateCredential_nil_saved (provisioner key : string) (input : Reader)
    (codec : option codec) (w w1 : World) :
  CreateCredential provisioner key input codec w = (None, w1) ->
  exists cr s, store_Save (CredentialsID_of key) cr s = (None, store w1).
Proof.
  unfold CreateCredential. rewrite bind_run.
  destruct (fst (Exists key w)); [ discriminate | ].
  rewrite bind_run, NewCredential_run; simpl.
  destruct (credentialers _ !! provisioner) as [f|]; simpl; [ | discriminate ].
  rewrite bind_run, ReadAll_run; simpl.
  destruct (ioutil_ReadAll input) as [buff|err]; simpl; [ | discriminate ].
  rewrite bind_run, Unmarshal_run; simpl.
  destruct (unmarshal _ buff (f tt)) as [cr|err]; simpl; [ | discriminate ].
  rewrite bind_run, Save_run; simpl.
  destruct (store_Save _ cr _) as [[err|] s'] eqn:Hsave; simpl;
    [ discriminate | ].
  intros [= <-]. simpl. eauto.
Qed.

End Query.

(** C2. On a key for which Exists is true, CreateCredential returns the
    Duplicate error and does nothing but the existence read: no write
    reaches the store, which is left as it was.  Hence of two consecutive
    creates on one key, the first of which returned nil, the second returns
    Duplicate and the store is the one the first call left. *)
Theorem CreateCredential_Duplicate
    `{!QueryStore Credential S, !SaveVisible Credential S}
    (provisioner key : string) (input : Reader) (codec : option codec)
    (w : World) :
  let duplicate := Some {| Code := ErrCredentialDuplicate;
                           Message := "Key exists: " +:+ key |} in
  let read := EvStoreGet (CredentialsID_of key) new_CredentialBase in
  (fst (Exists key w) = true ->
   CreateCredential provisioner key input codec w = (duplicate, logged w [read])) /\
  (forall provisioner1 input1 codec1 w1,
      CreateCredential provisioner1 key input1 codec1 w = (None, w1) ->
      fst (Exists key w1) = true /\
      CreateCredential provisioner key input codec w1 = (duplicate, logged w1 [read])).
Proof.
  intros duplicate read. split.
  - apply CreateCredential_on_existing.
  - intros provisioner1 input1 codec1 w1 Hfirst.
    assert (Hex : fst (Exists key w1) = true).
    { destruct (CreateCredential_nil_saved _ _ _ _ _ _ Hfirst)
        as (cr & s & Hsave).
      destruct (Save_then_GetCredentials _ _ _ _ Hsave) as [base Hbase].
      rewrite Exists_run; simpl. by rewrite Hbase. }
    split; [ exact Hex | by apply CreateCredential_on_existing ].
Qed.

(** C3. On a key for which Exists is false, UpdateCredential returns the
    NotFound error at once: the existence read is its only event (nothing
    is read from the input, nothing is decoded, nothing is saved), and the
    store, the registry and the lock are left as they were. *)
Theorem UpdateCredential_NotFound `{!QueryStore Credential S}
    (key : string) (input : Reader) (codec : option codec) (w : World) :
  fst (Exists key w) = false ->
  UpdateCredential key input codec w =
    (Some {| Code := ErrCredentialNotFound;
             Message := "Credential not found: " +:+ key |},
     logged w [EvStoreGet (CredentialsID_of key) new_CredentialBase]).
Proof.
  intros Hex. unfold UpdateCredential.
  rewrite bind_run, Hex, Exists_query. reflexivity.
Qed.

(** ** Update: the two decodes of the input *)

Ltac worlds :=
  unfold ret, logged, stepped; simpl; rewrite <- ?app_assoc; simpl;
  try reflexivity.

(** UpdateCredential on an existing key, step by step. *)
Lemma UpdateCredential_on_existing `{!QueryStore Credential S}
    (key : string) (input : Reader) (codec : option codec) (w : World) :
  let id := CredentialsID_of key in
  let ct := ensureValidCredentialContentType codec in
  let base0 := new_CredentialBase in
  fst (Exists key w) = true ->
  UpdateCredential key input codec w =
    match ioutil_ReadAll input with
    | Failed err =>
        (Some (CredentialError_Message_only err),
         logged w [EvStoreGet id base0; EvReadAll])
    | Ok buff =>
        match unmarshal ct buff base0 with
        | Failed err =>
            (Some (CredentialError_Message_only err),
             logged w [EvStoreGet id base0; EvReadAll; EvUnmarshal buff base0])
        | Ok base =>
            match credentialers w !! ProvisionerName base with
            | None =>
                (Some {| Code := ErrCredentialNotFound;
                         Message := "Unknow provisioner: "
                                    +:+ ProvisionerName base |},
                 logged w [EvStoreGet id base0; EvReadAll;
                           EvUnmarshal buff base0;
                           EvMapRead (ProvisionerName base)])
            | Some f =>
                match unmarshal ct buff (f tt) with
                | Failed err =>
                    (Some (CredentialError_Message_only err),
                     logged w [EvStoreGet id base0; EvReadAll;
                               EvUnmarshal buff base0;
                               EvMapRead (ProvisionerName base);
                               EvUnmarshal buff (f tt)])
                | Ok detail =>
                    (match fst (store_Save id detail (store w)) with
                     | Some err => Some (CredentialError_Message_only err)
                     | None => None
                     end,
                     stepped w (snd (store_Save id detail (store w)))
                       [EvStoreGet id base0; EvReadAll;
                        EvUnmarshal buff base0;
                        EvMapRead (ProvisionerName base);
                        EvUnmarshal buff (f tt);
                        EvStoreSave id detail])
                end
            end
        end
    end.
Proof.
  intros id ct base0 Hex. subst id ct base0. unfold UpdateCredential.
  rewrite bind_run, Hex, Exists_query; simpl.
  rewrite bind_run, ReadAll_run; simpl.
  destruct (ioutil_ReadAll input) as [buff|err]; simpl; [ | worlds ].
  rewrite bind_run, Unmarshal_run; simpl.
  destruct (unmarshal _ buff new_CredentialBase) as [base|err]; simpl;
    [ | worlds ].
  rewrite bind_run, NewCredential_run; simpl.
  destruct (credentialers w !! ProvisionerName base) as [f|]; simpl;
    [ | worlds ].
  rewrite bind_run, Unmarshal_run; simpl.
  destruct (unmarshal _ buff (f tt)) as [detail|err]; simpl; [ | worlds ].
  rewrite bind_run, Save_run; simpl.
  destruct (store_Save _ detail (store w)) as [[err|] s']; worlds.
Qed.

(** C4. On an existing key UpdateCredential decodes the bytes of the input,
    not the stored record: once into the base shape, for the provisioner
    name; then, the factory of that name resolved from the registry, the
    same bytes into the concrete shape; and only then calls Save.  When the
    input cannot be read, or either decode fails, or the registry has no
    factory for the decoded name, it returns the failure and the store is
    left as it was; the record at the key is written only by that final
    Save. *)
Theorem UpdateCredential_two_phase `{!QueryStore Credential S}
    (key : string) (input : Reader) (codec : option codec) (w : World) :
  let id := CredentialsID_of key in
  let ct := ensureValidCredentialContentType codec in
  let base0 := new_CredentialBase in
  fst (Exists key w) = true ->
  (forall err,
      ioutil_ReadAll input = Failed err ->
      UpdateCredential key input codec w =
        (Some (CredentialError_Message_only err),
         logged w [EvStoreGet id base0; EvReadAll])) /\
  (forall buff,
      ioutil_ReadAll input = Ok buff ->
      (forall err,
          unmarshal ct buff base0 = Failed err ->
          UpdateCredential key input codec w =
            (Some (CredentialError_Message_only err),
             logged w [EvStoreGet id base0; EvReadAll;
                       EvUnmarshal buff base0])) /\
      (forall base,
          unmarshal ct buff base0 = Ok base ->
          credentialers w !! ProvisionerName base = None ->
          UpdateCredential key input codec w =
            (Some {| Code := ErrCredentialNotFound;
                     Message := "Unknow provisioner: "
                                +:+ ProvisionerName base |},
             logged w [EvStoreGet id base0; EvReadAll;
                       EvUnmarshal buff base0;
                       EvMapRead (ProvisionerName base)])) /\
      (forall base f,
          unmarshal ct buff base0 = Ok base ->
          credentialers w !! ProvisionerName base = Some f ->
          (forall err,
              unmarshal ct buff (f tt) = Failed err ->
              UpdateCredential key input codec w =
                (Some (CredentialError_Message_only err),
                 logged w [EvStoreGet id base0; EvReadAll;
                           EvUnmarshal buff base0;
                           EvMapRead (ProvisionerName base);
                           EvUnmarshal buff (f tt)])) /\
          (forall detail,
              unmarshal ct buff (f tt) = Ok detail ->
              UpdateCredential key input codec w =
                (match fst (store_Save id detail (store w)) with
                 | Some err => Some (CredentialError_Message_only err)
                 | None => None
                 end,
                 stepped w (snd (store_Save id detail (store w)))
                   [EvStoreGet id base0; EvReadAll;
                    EvUnmarshal buff base0;
                    EvMapRead (ProvisionerName base);
                    EvUnmarshal buff (f tt);
                    EvStoreSave id detail])))).
Proof.
  intros id ct base0 Hex.
  pose proof (UpdateCredential_on_existing key input codec w Hex) as Hrun.
  fold id ct base0 in Hrun. split.
  - intros err Hread. by rewrite Hrun, Hread.
  - intros buff Hread. rewrite Hread in Hrun. repeat apply conj.
    + intros err Hbase. by rewrite Hrun, Hbase.
    + intros base Hbase Hnone. by rewrite Hrun, Hbase, Hnone.
    + intros base f Hbase Hf. rewrite Hbase, Hf in Hrun.
      split; intros ? Hdetail; by rewrite Hrun, Hdetail.
Qed.

(** C10. UpdateCredential does not look at the provisioner of the record it
    replaces.  Let the key hold a credential [stored], and let the input
    decode to a base whose provisioner name differs from that of [stored]
    and has a registered factory [f]; when the second decode, into [f tt],
    gives [detail] and the store accepts it, UpdateCredential returns nil
    and the store is the one left by saving [detail] at the key. *)
Theorem UpdateCredential_changes_provisioner `{!QueryStore Credential S}
    (key : string) (input : Reader) (codec : option codec) (w : World)
    (stored base detail : Credential) (buff : bytes)
    (f : unit -> Credential) (s' : S) :
  let id := CredentialsID_of key in
  let ct := ensureValidCredentialContentType codec in
  fst (Get key w) = Ok stored ->
  ioutil_ReadAll input = Ok buff ->
  unmarshal ct buff new_CredentialBase = Ok base ->
  ProvisionerName base <> ProvisionerName stored ->
  credentialers w !! ProvisionerName base = Some f ->
  unmarshal ct buff (f tt) = Ok detail ->
  store_Save id detail (store w) = (None, s') ->
  UpdateCredential key input codec w =
    (None,
     stepped w s' [EvStoreGet id new_CredentialBase; EvReadAll;
                   EvUnmarshal buff new_CredentialBase;
                   EvMapRead (ProvisionerName base);
                   EvUnmarshal buff (f tt);
                   EvStoreSave id detail]).
Proof.
  intros id ct Hget Hread Hbase _ Hf Hdetail Hsave.
  assert (Hex : fst (Exists key w) = true).
  { revert Hget. unfold Get. rewrite Exists_run, bind_run, store_call_run.
    simpl. destruct (fst (store_GetCredentials _ _ _)); [ done | ].
    discriminate. }
  rewrite (UpdateCredential_on_existing key input codec w Hex).
  fold id ct. by rewrite Hread, Hbase, Hf, Hdetail, Hsave.
Qed.

(** ** Unknown provisioners *)

(** C5, as the code has it. With no factory registered for the name,
    CreateCredential (on a key that does not exist) and UpdateCredential (on
    a key that exists, for the name its input decodes to) return an error of
    code ErrCredentialNotFound whose message names the provisioner; nothing
    is written to the store. *)
Theorem unknown_provisioner_is_NotFound `{!QueryStore Credential S}
    (key : string) (input : Reader) (codec : option codec) (w : World) :
  let id := CredentialsID_of key in
  let ct := ensureValidCredentialContentType codec in
  let base0 := new_CredentialBase in
  (forall provisioner,
      fst (Exists key w) = false ->
      credentialers w !! provisioner = None ->
      CreateCredential provisioner key input codec w =
        (Some {| Code := ErrCredentialNotFound;
                 Message := "Unknown provisioner:" +:+ provisioner |},
         logged w [EvStoreGet id base0; EvMapRead provisioner])) /\
  (forall buff base,
      fst (Exists key w) = true ->
      ioutil_ReadAll input = Ok buff ->
      unmarshal ct buff base0 = Ok base ->
      credentialers w !! ProvisionerName base = None ->
      UpdateCredential key input codec w =
        (Some {| Code := ErrCredentialNotFound;
                 Message := "Unknow provisioner: " +:+ ProvisionerName base |},
         logged w [EvStoreGet id base0; EvReadAll; EvUnmarshal buff base0;
                   EvMapRead (ProvisionerName base)])).
Proof.
  intros id ct base0. split.
  - intros provisioner Hex Hnone. unfold CreateCredential.
    rewrite bind_run, Hex, Exists_query; simpl.
    rewrite bind_run, NewCredential_run; simpl. rewrite Hnone. worlds.
  - intros buff base Hex Hread Hbase Hnone.
    rewrite (UpdateCredential_on_existing key input codec w Hex).
    fold id ct base0. by rewrite Hread, Hbase, Hnone.
Qed.

(** ** Registration and listing *)

(** RegisterCredentialer, when the mutex is free, installs the factory under
    the name, replacing any earlier one, and releases the mutex; NewCredential
    of that name then returns what the factory allocates.  On a held mutex it
    does not return. *)
Theorem RegisterCredentialer_then_NewCredential (provisionerName : string)
    (f : unit -> Credential) (w : World) :
  match RegisterCredentialer provisionerName f w with
  | Some w' =>
      lock w = false /\ lock w' = false
      /\ credentialers w' = <[provisionerName := f]> (credentialers w)
      /\ store w' = store w
      /\ fst (NewCredential provisionerName w') = Ok (f tt)
  | None => lock w = true
  end.
Proof.
  destruct (lock w) eqn:Hl.
  - unfold RegisterCredentialer, lock_Lock. by rewrite Hl.
  - rewrite RegisterCredentialer_run by exact Hl.
    rewrite NewCredential_run; simpl. by rewrite lookup_insert_eq.
Qed.

Lemma ListIds_loop_map (ids : list CredentialsID) (out : list string) :
  ListIds_loop out ids = out ++ map string_of_id ids.
Proof.
  revert out. induction ids as [|i ids IH]; intros out; simpl.
  - by rewrite app_nil_r.
  - by rewrite IH, <- app_assoc.
Qed.

(** ListIds returns the ids the store lists, in the store's order, each
    converted to a string, or the error of the store's List; it makes that
    one call. *)
Theorem ListIds_lists_store (w : World) :
  ListIds w =
    (match fst (store_List (store w)) with
     | Ok ids => Ok (map string_of_id ids)
     | Failed err => Failed err
     end,
     stepped w (snd (store_List (store w))) [EvStoreList]).
Proof.
  unfold ListIds. rewrite bind_run, store_call_run; simpl.
  destruct (fst (store_List (store w))) as [ids|err]; [ | reflexivity ].
  unfold ret. by rewrite ListIds_loop_map.
Qed.

(** ** What an operation calls *)

Lemma emits_ret {A : Type} (P : Event Credential -> Prop) (a : A) :
  emits P (ret a : M A).
Proof.
  intros w. exists (store w), []. split; [ | constructor ].
  unfold stepped; simpl. rewrite app_nil_r. by destruct w.
Qed.

Lemma emits_bind {A B : Type} (P : Event Credential -> Prop)
    (c : M A) (k : A -> M B) :
  emits P c -> (forall a, emits P (k a)) -> emits P (x <- c ;; k x).
Proof.
  intros Hc Hk w. rewrite bind_run.
  destruct (Hc w) as (s1 & es1 & E1 & F1).
  destruct (Hk (fst (c w)) (snd (c w))) as (s2 & es2 & E2 & F2).
  exists s2, (es1 ++ es2). split.
  - rewrite E2, E1. apply stepped_stepped.
  - apply Forall_app; by split.
Qed.

Lemma emits_emit (P : Event Credential -> Prop) (e : Event Credential) :
  P e -> emits P (emit e : M unit).
Proof.
  intros He w. exists (store w), [e]. split; [ reflexivity | by constructor ].
Qed.

Lemma emits_store_call {A : Type} (P : Event Credential -> Prop)
    (e : Event Credential) (f : S -> A * S) :
  P e -> emits P (store_call e f).
Proof.
  intros He w. rewrite store_call_run.
  exists (snd (f (store w))), [e]. split; [ reflexivity | by constructor ].
Qed.

Lemma emits_NewCredential (P : Event Credential -> Prop)
    (provisionerName : string) :
  P (EvMapRead provisionerName) ->
  emits P (NewCredential provisionerName : M _).
Proof.
  intros He w. rewrite NewCredential_run.
  exists (store w), [EvMapRead provisionerName].
  split; [ reflexivity | by constructor ].
Qed.

Ltac discipline :=
  repeat first
    [ apply emits_ret
    | apply emits_emit; done
    | apply emits_store_call; done
    | apply emits_NewCredential; done
    | apply emits_bind; [ | intros ? ]
    | match goal with
      | |- emits _ (match ?x with _ => _ end) => destruct x
      | |- emits _ (if ?x then _ else _) => destruct x
      end ].

(** Each operation on a key calls the store on that key only.  Whatever the
    world, every event of Get, Exists, Save, Delete, CreateCredential and
    UpdateCredential on [key] is a store call on [key], a registry lookup, a
    read of the input or a codec call: they never list the store, never
    call it on another key, never write the registry, never use the
    mutex. *)
Theorem keyed_operations_call_their_key (key : string) :
  emits (about_key key) (Get key)
  /\ emits (about_key key) (Exists key)
  /\ (forall cred, emits (about_key key) (Save key cred))
  /\ emits (about_key key) (Delete key)
  /\ (forall provisioner input codec,
        emits (about_key key) (CreateCredential provisioner key input codec))
  /\ (forall input codec,
        emits (about_key key) (UpdateCredential key input codec)).
Proof.
  repeat apply conj; intros.
  - unfold Get. discipline.
  - unfold Exists. discipline.
  - unfold Save. discipline.
  - unfold Delete. discipline.
  - unfold CreateCredential, Exists, ReadAll, Unmarshal, Save. discipline.
  - unfold UpdateCredential, Exists, ReadAll, Unmarshal, Save. discipline.
Qed.

(** The reading operations write nothing.  Whatever the world, no event of
    NewCredential, Get, Exists, ListIds, Marshal or Unmarshal is a Save or a
    Delete on the store, a write of the registry, or a use of the mutex. *)
Theorem reading_operations_write_nothing :
  (forall provisionerName,
      emits writes_nothing (NewCredential provisionerName : M _))
  /\ (forall key, emits writes_nothing (Get key))
  /\ (forall key, emits writes_nothing (Exists key))
  /\ emits writes_nothing ListIds
  /\ (forall contentType cred,
        emits writes_nothing (Marshal contentType cred : M _))
  /\ (forall contentType data cred,
        emits writes_nothing (Unmarshal contentType data cred : M _)).
Proof.
  repeat apply conj; intros.
  - discipline.
  - unfold Get. discipline.
  - unfold Exists. discipline.
  - unfold ListIds. discipline.
  - unfold Marshal. discipline.
  - unfold Unmarshal. discipline.
Qed.

(** ** Create and update, on any store *)

(** CreateCredential, step by step; [r] is the existence read. *)
Lemma CreateCredential_run (provisioner key : string) (input : Reader)
    (codec : option codec) (w : World) :
  CreateCredential provisioner key input codec w =
    let id := CredentialsID_of key in
    let ct := ensureValidCredentialContentType codec in
    let base0 := new_CredentialBase in
    let r := store_GetCredentials id base0 (store w) in
    match fst r with
    | Ok _ =>
        (Some {| Code := ErrCredentialDuplicate;
                 Message := "Key exists: " +:+ key |},
         stepped w (snd r) [EvStoreGet id base0])
    | Failed _ =>
        match credentialers w !! provisioner with
        | None =>
            (Some {| Code := ErrCredentialNotFound;
                     Message := "Unknown provisioner:" +:+ provisioner |},
             stepped w (snd r) [EvStoreGet id base0; EvMapRead provisioner])
        | Some f =>
            match ioutil_ReadAll input with
            | Failed err =>
                (Some (CredentialError_Message_only err),
                 stepped w (snd r)
                   [EvStoreGet id base0; EvMapRead provisioner; EvReadAll])
            | Ok buff =>
                match unmarshal ct buff (f tt) with
                | Failed err =>
                    (Some (CredentialError_Message_only err),
                     stepped w (snd r)
                       [EvStoreGet id base0; EvMapRead provisioner; EvReadAll;
                        EvUnmarshal buff (f tt)])
                | Ok cr =>
                    (match fst (store_Save id cr (snd r)) with
                     | Some err => Some (CredentialError_Message_only err)
                     | None => None
                     end,
                     stepped w (snd (store_Save id cr (snd r)))
                       [EvStoreGet id base0; EvMapRead provisioner; EvReadAll;
                        EvUnmarshal buff (f tt); EvStoreSave id cr])
                end
            end
        end
    end.
Proof.
  unfold CreateCredential. rewrite bind_run, Exists_run; simpl.
  destruct (fst (store_GetCredentials _ _ _)) as [base|err0]; simpl;
    [ reflexivity | ].
  rewrite bind_run, NewCredential_run; simpl. rewrite stepped_logged; simpl.
  destruct (credentialers w !! provisioner) as [f|]; simpl; [ | reflexivity ].
  rewrite bind_run, ReadAll_run; simpl. rewrite stepped_logged; simpl.
  destruct (ioutil_ReadAll input) as [buff|err]; simpl; [ | reflexivity ].
  rewrite bind_run, Unmarshal_run; simpl. rewrite stepped_logged; simpl.
  destruct (unmarshal _ buff (f tt)) as [cr|err]; simpl; [ | reflexivity ].
  rewrite bind_run, Save_run; simpl. rewrite stepped_stepped; simpl.
  destruct (fst (store_Save _ cr _)) as [err|]; reflexivity.
Qed.

(** UpdateCredential, step by step; [r] is the existence read. *)
Lemma UpdateCredential_run (key : string) (input : Reader)
    (codec : option codec) (w : World) :
  UpdateCredential key input codec w =
    let id := CredentialsID_of key in
    let ct := ensureValidCredentialContentType codec in
    let base0 := new_CredentialBase in
    let r := store_GetCredentials id base0 (store w) in
    match fst r with
    | Failed _ =>
        (Some {| Code := ErrCredentialNotFound;
                 Message := "Credential not found: " +:+ key |},
         stepped w (snd r) [EvStoreGet id base0])
    | Ok _ =>
        match ioutil_ReadAll input with
        | Failed err =>
            (Some (CredentialError_Message_only err),
             stepped w (snd r) [EvStoreGet id base0; EvReadAll])
        | Ok buff =>
            match unmarshal ct buff base0 with
            | Failed err =>
                (Some (CredentialError_Message_only err),
                 stepped w (snd r)
                   [EvStoreGet id base0; EvReadAll; EvUnmarshal buff base0])
            | Ok base =>
                match credentialers w !! ProvisionerName base with
                | None =>
                    (Some {| Code := ErrCredentialNotFound;
                             Message := "Unknow provisioner: "
                                        +:+ ProvisionerName base |},
                     stepped w (snd r)
                       [EvStoreGet id base0; EvReadAll; EvUnmarshal buff base0;
                        EvMapRead (ProvisionerName base)])
                | Some f =>
                    match unmarshal ct buff (f tt) with
                    | Failed err =>
                        (Some (CredentialError_Message_only err),
                         stepped w (snd r)
                           [EvStoreGet id base0; EvReadAll;
                            EvUnmarshal buff base0;
                            EvMapRead (ProvisionerName base);
                            EvUnmarshal buff (f tt)])
                    | Ok detail =>
                        (match fst (store_Save id detail (snd r)) with
                         | Some err => Some (CredentialError_Message_only err)
                         | None => None
                         end,
                         stepped w (snd (store_Save id detail (snd r)))
                           [EvStoreGet id base0; EvReadAll;
                            EvUnmarshal buff base0;
                            EvMapRead (ProvisionerName base);
                            EvUnmarshal buff (f tt);
                            EvStoreSave id detail])
                    end
                end
            end
        end
    end.
Proof.
  unfold UpdateCredential. rewrite bind_run, Exists_run; simpl.
  destruct (fst (store_GetCredentials _ _ _)) as [base1|err0]; simpl;
    [ | reflexivity ].
  rewrite bind_run, ReadAll_run; simpl. rewrite stepped_logged; simpl.
  destruct (ioutil_ReadAll input) as [buff|err]; simpl; [ | reflexivity ].
  rewrite bind_run, Unmarshal_run; simpl. rewrite stepped_logged; simpl.
  destruct (unmarshal _ buff new_CredentialBase) as [base|err]; simpl;
    [ | reflexivity ].
  rewrite bind_run, NewCredential_run; simpl. rewrite stepped_logged; simpl.
  destruct (credentialers w !! ProvisionerName base) as [f|]; simpl;
    [ | reflexivity ].
  rewrite bind_run, Unmarshal_run; simpl. rewrite stepped_logged; simpl.
  destruct (unmarshal _ buff (f tt)) as [detail|err]; simpl; [ | reflexivity ].
  rewrite bind_run, Save_run; simpl. rewrite stepped_stepped; simpl.
  destruct (fst (store_Save _ detail _)) as [err|]; reflexivity.
Qed.

Lemma Exists_false (key : string) (w : World) :
  fst (Exists key w) = false <->
  exists err,
    fst (store_GetCredentials (CredentialsID_of key) new_CredentialBase (store w))
    = Failed err.
Proof.
  rewrite Exists_run; simpl.
  destruct (fst (store_GetCredentials _ _ _)) as [base|err]; simpl; split.
  - discriminate.
  - intros [err [=]].
  - eauto.
  - reflexivity.
Qed.

Lemma Exists_true (key : string) (w : World) :
  fst (Exists key w) = true <->
  exists base,
    fst (store_GetCredentials (CredentialsID_of key) new_CredentialBase (store w))
    = Ok base.
Proof.
  rewrite Exists_run; simpl.
  destruct (fst (store_GetCredentials _ _ _)) as [base|err]; simpl; split.
  - eauto.
  - reflexivity.
  - discriminate.
  - intros [base [=]].
Qed.

(** CreateCredential on a key that does not exist, for a registered
    provisioner: it reads the whole input, decodes it once, straight into
    the credential the factory allocates (the input is never decoded into
    the base shape), and saves the result at the key.  A failure of the
    read, of the decode or of the save is returned with its message
    unchanged; after a failed read or decode the store is as it was. *)
Theorem CreateCredential_decodes_once `{!QueryStore Credential S}
    (provisioner key : string) (input : Reader) (codec : option codec)
    (w : World) (f : unit -> Credential) :
  let id := CredentialsID_of key in
  let ct := ensureValidCredentialContentType codec in
  let base0 := new_CredentialBase in
  fst (Exists key w) = false ->
  credentialers w !! provisioner = Some f ->
  (forall err,
      ioutil_ReadAll input = Failed err ->
      CreateCredential provisioner key input codec w =
        (Some {| Code := 0; Message := err |},
         logged w [EvStoreGet id base0; EvMapRead provisioner; EvReadAll])) /\
  (forall buff,
      ioutil_ReadAll input = Ok buff ->
      (forall err,
          unmarshal ct buff (f tt) = Failed err ->
          CreateCredential provisioner key input codec w =
            (Some {| Code := 0; Message := err |},
             logged w [EvStoreGet id base0; EvMapRead provisioner; EvReadAll;
                       EvUnmarshal buff (f tt)])) /\
      (forall cr,
          unmarshal ct buff (f tt) = Ok cr ->
          CreateCredential provisioner key input codec w =
            (match fst (store_Save id cr (store w)) with
             | Some err => Some {| Code := 0; Message := err |}
             | None => None
             end,
             stepped w (snd (store_Save id cr (store w)))
               [EvStoreGet id base0; EvMapRead provisioner; EvReadAll;
                EvUnmarshal buff (f tt); EvStoreSave id cr]))).
Proof.
  intros id ct base0 Hex Hf.
  apply Exists_false in Hex as [err0 Hr].
  pose proof (CreateCredential_run provisioner key input codec w) as Hrun.
  simpl in Hrun. rewrite Hr, Hf, GetCredentials_query in Hrun.
  split.
  - intros err Hread. by rewrite Hrun, Hread.
  - intros buff Hread. rewrite Hread in Hrun. split.
    + intros err Hdec. subst ct. by rewrite Hrun, Hdec.
    + intros cr Hdec. subst ct id. by rewrite Hrun, Hdec.
Qed.

(** The errors of CreateCredential.  It returns nil only on a key that does
    not exist and for a registered provisioner.  Its error has the code
    ErrCredentialNotFound exactly when the key does not exist and the
    provisioner has no factory, the message then naming the provisioner;
    every other error has the code ErrCredentialDuplicate, and on an
    existing key it is the "Key exists" error. *)
Theorem CreateCredential_error_codes (provisioner key : string)
    (input : Reader) (codec : option codec) (w : World) :
  match fst (CreateCredential provisioner key input codec w) with
  | None =>
      fst (Exists key w) = false
      /\ is_Some (credentialers w !! provisioner)
  | Some e =>
      (Code e = ErrCredentialNotFound <->
       fst (Exists key w) = false /\ credentialers w !! provisioner = None)
      /\ (Code e = ErrCredentialNotFound ->
          Message e = "Unknown provisioner:" +:+ provisioner)
      /\ (Code e <> ErrCredentialNotFound -> Code e = ErrCredentialDuplicate)
      /\ (fst (Exists key w) = true ->
          e = {| Code := ErrCredentialDuplicate;
                 Message := "Key exists: " +:+ key |})
  end.
Proof.
  rewrite CreateCredential_run, Exists_run; simpl.
  destruct (fst (store_GetCredentials _ _ _)) as [base|err0]; simpl.
  { repeat apply conj; try done. by intros []. }
  destruct (credentialers w !! provisioner) as [f|]; simpl;
    [ | by repeat apply conj ].
  assert (Hgeneric : forall m,
             (Code (CredentialError_Message_only m) = ErrCredentialNotFound <->
              false = false /\ Some f = None)
             /\ (Code (CredentialError_Message_only m) = ErrCredentialNotFound ->
                 Message (CredentialError_Message_only m)
                 = "Unknown provisioner:" +:+ provisioner)
             /\ (Code (CredentialError_Message_only m) <> ErrCredentialNotFound ->
                 Code (CredentialError_Message_only m) = ErrCredentialDuplicate)
             /\ (false = true ->
                 CredentialError_Message_only m
                 = {| Code := ErrCredentialDuplicate;
                      Message := "Key exists: " +:+ key |})).
  { intros m. repeat apply conj; try done. by intros []. }
  destruct (ioutil_ReadAll input) as [buff|err]; simpl; [ | apply Hgeneric ].
  destruct (unmarshal _ buff (f tt)) as [cr|err]; simpl; [ | apply Hgeneric ].
  destruct (fst (store_Save _ cr _)) as [err|]; simpl; [ apply Hgeneric | ].
  split; [ reflexivity | eauto ].
Qed.

(** The errors of UpdateCredential.  It returns nil only on an existing
    key.  On a key that does not exist its error is the "Credential not
    found" one; an error of code ErrCredentialNotFound otherwise means that
    the input decodes to a provisioner name without a factory, which the
    message names; every other error has the code 0, that of
    ErrCredentialDuplicate. *)
Theorem UpdateCredential_error_codes (key : string) (input : Reader)
    (codec : option codec) (w : World) :
  let ct := ensureValidCredentialContentType codec in
  match fst (UpdateCredential key input codec w) with
  | None => fst (Exists key w) = true
  | Some e =>
      (fst (Exists key w) = false ->
       e = {| Code := ErrCredentialNotFound;
              Message := "Credential not found: " +:+ key |})
      /\ (fst (Exists key w) = true ->
          Code e = ErrCredentialNotFound ->
          exists buff base,
            ioutil_ReadAll input = Ok buff
            /\ unmarshal ct buff new_CredentialBase = Ok base
            /\ credentialers w !! ProvisionerName base = None
            /\ Message e = "Unknow provisioner: " +:+ ProvisionerName base)
      /\ (Code e <> ErrCredentialNotFound -> Code e = ErrCredentialDuplicate)
  end.
Proof.
  intros ct. rewrite UpdateCredential_run, Exists_run; simpl.
  destruct (fst (store_GetCredentials _ _ _)) as [base1|err0]; simpl;
    [ | by repeat apply conj ].
  assert (Hgeneric : forall m (P : Prop),
             (true = false ->
              CredentialError_Message_only m
              = {| Code := ErrCredentialNotFound;
                   Message := "Credential not found: " +:+ key |})
             /\ (true = true ->
                 Code (CredentialError_Message_only m) = ErrCredentialNotFound ->
                 P)
             /\ (Code (CredentialError_Message_only m) <> ErrCredentialNotFound ->
                 Code (CredentialError_Message_only m) = ErrCredentialDuplicate)).
  { intros m P. by repeat apply conj. }
  destruct (ioutil_ReadAll input) as [buff|err] eqn:Hread; simpl;
    [ | apply Hgeneric ].
  fold ct.
  destruct (unmarshal ct buff new_CredentialBase) as [base|err] eqn:Hbase;
    simpl; [ | apply Hgeneric ].
  destruct (credentialers w !! ProvisionerName base) as [f|] eqn:Hf; simpl.
  - destruct (unmarshal ct buff (f tt)) as [detail|err]; simpl;
      [ | apply Hgeneric ].
    destruct (fst (store_Save _ detail _)) as [err|]; simpl;
      [ apply Hgeneric | reflexivity ].
  - repeat apply conj; try done. intros _ _. by exists buff, base.
Qed.

(** ** What nil means *)

Lemma UpdateCredential_nil_saved (key : string) (input : Reader)
    (codec : option codec) (w w1 : World) :
  UpdateCredential key input codec w = (None, w1) ->
  exists cr s, store_Save (CredentialsID_of key) cr s = (None, store w1).
Proof.
  rewrite UpdateCredential_run; simpl.
  destruct (fst (store_GetCredentials _ _ _)); [ | discriminate ].
  destruct (ioutil_ReadAll input) as [buff|]; [ | discriminate ].
  destruct (unmarshal _ buff new_CredentialBase) as [base|]; [ | discriminate ].
  destruct (credentialers w !! ProvisionerName base) as [f|]; [ | discriminate ].
  destruct (unmarshal _ buff (f tt)) as [detail|]; [ | discriminate ].
  destruct (store_Save _ detail _) as [[err|] s'] eqn:Hsave; simpl;
    [ discriminate | ].
  intros [= <-]. simpl. eauto.
Qed.

(** CreateCredential and UpdateCredential return nil only after the store
    accepted a Save at the key: that Save is their last event and their
    only write (every event before it writes nothing), the store they leave
    is the one that Save left, and the registry is untouched. *)
Theorem nil_only_after_Save (provisioner key : string) (input : Reader)
    (codec : option codec) (w w1 : World) :
  CreateCredential provisioner key input codec w = (None, w1)
  \/ UpdateCredential key input codec w = (None, w1) ->
  exists cred s es,
    store_Save (CredentialsID_of key) cred s = (None, store w1)
    /\ trace w1 = trace w ++ es ++ [EvStoreSave (CredentialsID_of key) cred]
    /\ Forall writes_nothing es
    /\ credentialers w1 = credentialers w.
Proof.
  intros [H|H].
  - rewrite CreateCredential_run in H; simpl in H.
    destruct (fst (store_GetCredentials _ _ _)); [ discriminate | ].
    destruct (credentialers w !! provisioner) as [f|]; [ | discriminate ].
    destruct (ioutil_ReadAll input) as [buff|]; [ | discriminate ].
    destruct (unmarshal _ buff (f tt)) as [cr|]; [ | discriminate ].
    destruct (store_Save _ cr _) as [[e|] s'] eqn:Hsave; simpl in H;
      [ discriminate | ].
    injection H as <-.
    eexists cr, _,
      [EvStoreGet (CredentialsID_of key) new_CredentialBase;
       EvMapRead provisioner; EvReadAll; EvUnmarshal buff (f tt)].
    split; [ exact Hsave | ]. split; [ reflexivity | ].
    split; [ by repeat constructor | reflexivity ].
  - rewrite UpdateCredential_run in H; simpl in H.
    destruct (fst (store_GetCredentials _ _ _)); [ | discriminate ].
    destruct (ioutil_ReadAll input) as [buff|]; [ | discriminate ].
    destruct (unmarshal _ buff new_CredentialBase) as [base|];
      [ | discriminate ].
    destruct (credentialers w !! ProvisionerName base) as [f|];
      [ | discriminate ].
    destruct (unmarshal _ buff (f tt)) as [detail|]; [ | discriminate ].
    destruct (store_Save _ detail _) as [[e|] s'] eqn:Hsave; simpl in H;
      [ discriminate | ].
    injection H as <-.
    eexists detail, _,
      [EvStoreGet (CredentialsID_of key) new_CredentialBase; EvReadAll;
       EvUnmarshal buff new_CredentialBase; EvMapRead (ProvisionerName base);
       EvUnmarshal buff (f tt)].
    split; [ exact Hsave | ]. split; [ reflexivity | ].
    split; [ by repeat constructor | reflexivity ].
Qed.

(** Once CreateCredential or UpdateCredential has returned nil on a key, in
    a store where a saved record can be read back, the key exists: Exists
    is true, every CreateCredential on it returns the Duplicate error, and
    no UpdateCredential on it returns the "Credential not found" error. *)
Theorem success_makes_key_exist `{!SaveVisible Credential S}
    (key : string) (w w1 : World) :
  (exists provisioner input codec,
      CreateCredential provisioner key input codec w = (None, w1))
  \/ (exists input codec, UpdateCredential key input codec w = (None, w1)) ->
  fst (Exists key w1) = true
  /\ (forall provisioner input codec,
        fst (CreateCredential provisioner key input codec w1)
        = Some {| Code := ErrCredentialDuplicate;
                  Message := "Key exists: " +:+ key |})
  /\ (forall input codec,
        fst (UpdateCredential key input codec w1)
        <> Some {| Code := ErrCredentialNotFound;
                   Message := "Credential not found: " +:+ key |}).
Proof.
  intros Hnil.
  assert (Hsaved : exists cr s,
             store_Save (CredentialsID_of key) cr s = (None, store w1)).
  { destruct Hnil as [(p & input & codec & H)|(input & codec & H)].
    - exact (CreateCredential_nil_saved _ _ _ _ _ _ H).
    - exact (UpdateCredential_nil_saved _ _ _ _ _ H). }
  destruct Hsaved as (cr & s & Hsave).
  destruct (Save_then_GetCredentials _ _ _ _ Hsave) as [base Hbase].
  repeat apply conj.
  - apply Exists_true. eauto.
  - intros provisioner input codec.
    rewrite CreateCredential_run; simpl. by rewrite Hbase.
  - intros input codec. rewrite UpdateCredential_run; simpl. rewrite Hbase.
    destruct (ioutil_ReadAll input) as [buff|]; [ | discriminate ].
    destruct (unmarshal _ buff new_CredentialBase) as [b|]; [ | discriminate ].
    destruct (credentialers w1 !! ProvisionerName b) as [f|];
      [ | simpl; discriminate ].
    destruct (unmarshal _ buff (f tt)) as [detail|]; [ | discriminate ].
    simpl. destruct (fst (store_Save _ detail _)); discriminate.
Qed.

(** ** Get and Exists *)

Lemma Get_run (key : string) (w : World) :
  Get key w =
    let id := CredentialsID_of key in
    let base0 := new_CredentialBase in
    let r := store_GetCredentials id base0 (store w) in
    match fst r with
    | Failed err => (Failed err, stepped w (snd r) [EvStoreGet id base0])
    | Ok base =>
        match credentialers w !! ProvisionerName base with
        | None =>
            (Failed ("Unknown provisioner: " +:+ ProvisionerName base),
             stepped w (snd r)
               [EvStoreGet id base0; EvMapRead (ProvisionerName base)])
        | Some f =>
            let r2 := store_GetCredentials id (f tt) (snd r) in
            (fst r2,
             stepped w (snd r2)
               [EvStoreGet id base0; EvMapRead (ProvisionerName base);
                EvStoreGet id (f tt)])
        end
    end.
Proof.
  unfold Get. rewrite bind_run, store_call_run; simpl.
  destruct (fst (store_GetCredentials _ _ _)) as [base|err]; simpl;
    [ | reflexivity ].
  rewrite bind_run, NewCredential_run; simpl. rewrite stepped_logged; simpl.
  destruct (credentialers w !! ProvisionerName base) as [f|]; simpl;
    [ | reflexivity ].
  rewrite bind_run, store_call_run; simpl. rewrite stepped_stepped; simpl.
  destruct (fst (store_GetCredentials _ (f tt) _)); reflexivity.
Qed.

(** Get against Exists.  Where Exists is false, Get fails with the error of
    the store, having done what Exists does and no more: one read, no
    lookup in the registry.  Where Get returns a credential, Exists is true
    and the provisioner named by the stored record has a factory.  Exists
    alone does not make Get succeed: on a record whose provisioner has no
    factory Exists is true and Get fails. *)
Theorem Get_against_Exists (key : string) (w : World) :
  let id := CredentialsID_of key in
  let base0 := new_CredentialBase in
  (fst (Exists key w) = false ->
   exists err,
     fst (store_GetCredentials id base0 (store w)) = Failed err
     /\ Get key w = (Failed err, snd (Exists key w)))
  /\ (forall detail,
        fst (Get key w) = Ok detail ->
        fst (Exists key w) = true
        /\ exists base f,
             fst (store_GetCredentials id base0 (store w)) = Ok base
             /\ credentialers w !! ProvisionerName base = Some f)
  /\ (forall base,
        fst (store_GetCredentials id base0 (store w)) = Ok base ->
        credentialers w !! ProvisionerName base = None ->
        fst (Exists key w) = true
        /\ fst (Get key w)
           = Failed ("Unknown provisioner: " +:+ ProvisionerName base)).
Proof.
  intros id base0. rewrite Get_run, Exists_run; simpl. fold id base0.
  destruct (fst (store_GetCredentials id base0 (store w))) as [base|err];
    simpl; repeat apply conj.
  - discriminate.
  - intros detail Hget. split; [ reflexivity | ].
    destruct (credentialers w !! ProvisionerName base) as [f|] eqn:Hf;
      [ eauto | discriminate ].
  - intros b [= <-] Hnone. by rewrite Hnone.
  - intros _. eauto.
  - discriminate.
  - discriminate.
Qed.

(** ** Registrations *)

(** Two registrations under one name: the second replaces the first.  From
    a free mutex both return, the map holds the second factory under the
    name and is otherwise what it would be after the second registration
    alone, the mutex is free again, and a manager built afterwards over any
    store allocates with the second factory. *)
Theorem RegisterCredentialer_last_wins (provisionerName : string)
    (f g : unit -> Credential) (w : World) (store0 : S) :
  lock w = false ->
  exists w1 w2,
    RegisterCredentialer provisionerName f w = Some w1
    /\ RegisterCredentialer provisionerName g w1 = Some w2
    /\ credentialers w2 = <[provisionerName := g]> (credentialers w)
    /\ lock w2 = false
    /\ store w2 = store w
    /\ fst (NewCredential provisionerName (NewCredentials store0 w2))
       = Ok (g tt).
Proof.
  intros Hfree.
  eexists _, _. split; [ by apply RegisterCredentialer_run | ].
  split; [ by apply RegisterCredentialer_run | ]. simpl.
  rewrite insert_insert_eq. repeat apply conj; try reflexivity.
  rewrite NewCredential_run; simpl. by rewrite lookup_insert_eq.
Qed.

(** Registrations under different names do not interfere: registering
    [provisionerName] leaves what NewCredential returns for any other name,
    and two registrations under different names leave the same map in
    either order. *)
Theorem RegisterCredentialer_other_names (provisionerName other : string)
    (f g : unit -> Credential) (w : World) :
  provisionerName <> other ->
  lock w = false ->
  exists w1 w2 w1' w2',
    RegisterCredentialer provisionerName f w = Some w1
    /\ fst (NewCredential other w1) = fst (NewCredential other w)
    /\ RegisterCredentialer other g w1 = Some w2
    /\ RegisterCredentialer other g w = Some w1'
    /\ RegisterCredentialer provisionerName f w1' = Some w2'
    /\ credentialers w2 = credentialers w2'
    /\ fst (NewCredential provisionerName w2) = Ok (f tt)
    /\ fst (NewCredential other w2) = Ok (g tt).
Proof.
  intros Hne Hfree.
  eexists _, _, _, _. split; [ by apply RegisterCredentialer_run | ].
  split.
  { rewrite !NewCredential_run; simpl. by rewrite lookup_insert_ne. }
  split; [ by apply RegisterCredentialer_run | ].
  split; [ by apply RegisterCredentialer_run | ].
  split; [ by apply RegisterCredentialer_run | ]. simpl.
  split; [ by apply insert_insert_ne | ].
  rewrite !NewCredential_run; simpl.
  rewrite lookup_insert_ne by done. by rewrite !lookup_insert_eq.
Qed.

End Properties.

(** * The manager on the in-memory store *)

Lemma split_colon_encoded (name rest : bytes) :
  exists n b, Mem.split_colon (name ++ Mem.colon :: rest) = Some (n, b).
Proof.
  induction name as [|c name IH]; simpl.
  - eauto.
  - destruct (Byte.eqb c Mem.colon); [ eauto | ].
    destruct IH as (n & b & ->). eauto.
Qed.

#[global] Instance Mem_query : QueryStore Mem.Cred (gmap string bytes).
Proof. intros id target s. reflexivity. Qed.

#[global] Instance Mem_save_visible : SaveVisible Mem.Cred (gmap string bytes).
Proof.
  intros id cred s s' [= <-]. simpl. rewrite lookup_insert_eq.
  unfold Mem.decode, Mem.encode.
  destruct (split_colon_encoded (list_byte_of_string (Mem.provisioner cred))
              (Mem.body cred)) as (n & b & ->).
  eauto.
Qed.

(** The scenario of two provisioners and one key, run end to end. *)
Example scenario_create_get_list :
  fst (CreateCredential "aws" "k1" (Mem.payload "aws:AB") None Mem.w0) = None
  /\ fst (Get "k1" Mem.w1)
     = Ok {| Mem.shape := "aws"; Mem.provisioner := "aws";
             Mem.body := list_byte_of_string "AB" |}
  /\ fst (ListIds Mem.w1) = Ok ["k1"]
  /\ fst (Exists "k1" Mem.w1) = true
  /\ fst (Exists "k1" (snd (Delete "k1" Mem.w1))) = false.
Proof. vm_compute. repeat split. Qed.

Example scenario_get_failures :
  fst (Get "k2" Mem.w1) = Failed "no such credential"
  /\ fst (Get "k1" (snd (Save "k1" {| Mem.shape := "gcp";
                                      Mem.provisioner := "gcp";
                                      Mem.body := [] |} Mem.w1)))
     = Failed "Unknown provisioner: gcp".
Proof. vm_compute. split; reflexivity. Qed.

(** Witness of C2: "k1" exists in [w1], the world a first create left. *)
Lemma CreateCredential_Duplicate_witness :
  CreateCredential "aws" "k1" (Mem.payload "aws:AB") None Mem.w0 = (None, Mem.w1)
  /\ fst (Exists "k1" Mem.w1) = true
  /\ CreateCredential "azure" "k1" (Mem.payload "azure:XY") None Mem.w1
     = (Some {| Code := ErrCredentialDuplicate; Message := "Key exists: k1" |},
        logged Mem.w1 [EvStoreGet (CredentialsID_of "k1") Mem.base])
  /\ store (snd (CreateCredential "azure" "k1" (Mem.payload "azure:XY") None
                   Mem.w1)) !! "k1"
     = Some (list_byte_of_string "aws:AB").
Proof.
  assert (Hfirst : CreateCredential "aws" "k1" (Mem.payload "aws:AB") None
                     Mem.w0 = (None, Mem.w1)) by (vm_compute; reflexivity).
  destruct (CreateCredential_Duplicate "azure" "k1" (Mem.payload "azure:XY")
              None Mem.w0) as [_ Hsecond].
  destruct (Hsecond "aws" (Mem.payload "aws:AB") None Mem.w1 Hfirst)
    as [Hex Hdup].
  split; [ exact Hfirst | ]. split; [ exact Hex | ]. split; [ exact Hdup | ].
  rewrite Hdup. vm_compute. reflexivity.
Defined.

(** Witness of C3: "k2" does not exist in [w1]. *)
Lemma UpdateCredential_NotFound_witness :
  fst (Exists "k2" Mem.w1) = false
  /\ UpdateCredential "k2" (Mem.payload "aws:CD") None Mem.w1
     = (Some {| Code := ErrCredentialNotFound;
                Message := "Credential not found: k2" |},
        logged Mem.w1 [EvStoreGet (CredentialsID_of "k2") Mem.base])
  /\ store (snd (UpdateCredential "k2" (Mem.payload "aws:CD") None Mem.w1)) !! "k2"
     = None.
Proof.
  assert (Hex : fst (Exists "k2" Mem.w1) = false) by (vm_compute; reflexivity).
  pose proof (UpdateCredential_NotFound "k2" (Mem.payload "aws:CD") None
                Mem.w1 Hex) as Hupd.
  split; [ exact Hex | ]. split; [ exact Hupd | ].
  rewrite Hupd. vm_compute. reflexivity.
Defined.

(** Witness of C4: on "k1" of [w1], a payload without a colon is refused by
    the first decode, a payload that names "gcp", which has no factory, is
    refused after the registry lookup, and in both cases the store keeps
    its record. *)
Lemma UpdateCredential_two_phase_witness :
  fst (Exists "k1" Mem.w1) = true
  /\ UpdateCredential "k1" (Mem.payload "garbage") None Mem.w1
     = (Some (CredentialError_Message_only "malformed payload"),
        logged Mem.w1 [EvStoreGet (CredentialsID_of "k1") Mem.base; EvReadAll;
                       EvUnmarshal (list_byte_of_string "garbage") Mem.base])
  /\ store (snd (UpdateCredential "k1" (Mem.payload "garbage") None Mem.w1))
     = store Mem.w1
  /\ UpdateCredential "k1" (Mem.payload "gcp:XY") None Mem.w1
     = (Some {| Code := ErrCredentialNotFound;
                Message := "Unknow provisioner: gcp" |},
        logged Mem.w1 [EvStoreGet (CredentialsID_of "k1") Mem.base; EvReadAll;
                       EvUnmarshal (list_byte_of_string "gcp:XY") Mem.base;
                       EvMapRead "gcp"])
  /\ store (snd (UpdateCredential "k1" (Mem.payload "gcp:XY") None Mem.w1))
     = store Mem.w1.
Proof.
  assert (Hex : fst (Exists "k1" Mem.w1) = true) by (vm_compute; reflexivity).
  destruct (UpdateCredential_two_phase "k1" (Mem.payload "garbage") None
              Mem.w1 Hex) as [_ Hread].
  destruct (Hread (list_byte_of_string "garbage")) as [Hbase _];
    [ vm_compute; reflexivity | ].
  pose proof (Hbase "malformed payload" ltac:(vm_compute; reflexivity)) as Hupd.
  destruct (UpdateCredential_two_phase "k1" (Mem.payload "gcp:XY") None
              Mem.w1 Hex) as [_ Hread'].
  destruct (Hread' (list_byte_of_string "gcp:XY")) as (_ & Hmiss & _);
    [ vm_compute; reflexivity | ].
  pose proof (Hmiss {| Mem.shape := "base"; Mem.provisioner := "gcp";
                       Mem.body := [] |}
                ltac:(vm_compute; reflexivity)
                ltac:(vm_compute; reflexivity)) as Hgcp.
  split; [ exact Hex | ]. split; [ exact Hupd | ].
  split; [ rewrite Hupd; reflexivity | ].
  split; [ exact Hgcp | ]. rewrite Hgcp. reflexivity.
Defined.

(** Witness of C10: "k1" holds an "aws" credential in [w1]; an update whose
    input names "azure" is accepted, and Get then returns an "azure"
    credential. *)
Lemma UpdateCredential_changes_provisioner_witness :
  let stored := {| Mem.shape := "aws"; Mem.provisioner := "aws";
                   Mem.body := list_byte_of_string "AB" |} in
  let detail := {| Mem.shape := "azure"; Mem.provisioner := "azure";
                   Mem.body := list_byte_of_string "XY" |} in
  let after := snd (UpdateCredential "k1" (Mem.payload "azure:XY") None Mem.w1) in
  fst (Get "k1" Mem.w1) = Ok stored
  /\ fst (UpdateCredential "k1" (Mem.payload "azure:XY") None Mem.w1) = None
  /\ store after = <["k1" := Mem.encode detail]> (store Mem.w1)
  /\ fst (Get "k1" after) = Ok detail.
Proof.
  intros stored detail after.
  assert (Hget : fst (Get "k1" Mem.w1) = Ok stored) by (vm_compute; reflexivity).
  pose proof (UpdateCredential_changes_provisioner
                "k1" (Mem.payload "azure:XY") None Mem.w1
                stored {| Mem.shape := "base"; Mem.provisioner := "azure";
                          Mem.body := [] |}
                detail (list_byte_of_string "azure:XY") (Mem.empty "azure")
                (<["k1" := Mem.encode detail]> (store Mem.w1))
                Hget
                ltac:(vm_compute; reflexivity)
                ltac:(vm_compute; reflexivity)
                ltac:(vm_compute; discriminate)
                ltac:(vm_compute; reflexivity)
                ltac:(vm_compute; reflexivity)
                ltac:(reflexivity)) as Hupd.
  split; [ exact Hget | ]. subst after. rewrite Hupd.
  split; [ reflexivity | ]. split; [ reflexivity | ].
  vm_compute. reflexivity.
Defined.

(** Witness of C5: "gcp" has no factory in [w1]. *)
Lemma unknown_provisioner_is_NotFound_witness :
  credentialers Mem.w1 !! "gcp" = None
  /\ CreateCredential "gcp" "k2" (Mem.payload "gcp:XY") None Mem.w1
     = (Some {| Code := ErrCredentialNotFound;
                Message := "Unknown provisioner:gcp" |},
        logged Mem.w1 [EvStoreGet (CredentialsID_of "k2") Mem.base;
                       EvMapRead "gcp"])
  /\ UpdateCredential "k1" (Mem.payload "gcp:XY") None Mem.w1
     = (Some {| Code := ErrCredentialNotFound;
                Message := "Unknow provisioner: gcp" |},
        logged Mem.w1 [EvStoreGet (CredentialsID_of "k1") Mem.base; EvReadAll;
                       EvUnmarshal (list_byte_of_string "gcp:XY") Mem.base;
                       EvMapRead "gcp"]).
Proof.
  assert (Hnone : credentialers Mem.w1 !! "gcp" = None)
    by (vm_compute; reflexivity).
  destruct (unknown_provisioner_is_NotFound "k2" (Mem.payload "gcp:XY") None
              Mem.w1) as [Hcreate _].
  destruct (unknown_provisioner_is_NotFound "k1" (Mem.payload "gcp:XY") None
              Mem.w1) as [_ Hupdate].
  split; [ exact Hnone | ]. split.
  - apply Hcreate; [ vm_compute; reflexivity | exact Hnone ].
  - apply (Hupdate (list_byte_of_string "gcp:XY")
             {| Mem.shape := "base"; Mem.provisioner := "gcp"; Mem.body := [] |});
      vm_compute; reflexivity.
Defined.

(** Counterexample to C5 with a kind of its own for unknown provisioners:
    with no factory for "gcp", the error of CreateCredential and of
    UpdateCredential has the code of NotFound, not a code apart from
    Duplicate and NotFound. *)
Lemma unknown_provisioner_kind_counterexample :
  credentialers Mem.w1 !! "gcp" = None
  /\ ~ (exists e,
          fst (CreateCredential "gcp" "k2" (Mem.payload "gcp:XY") None Mem.w1)
          = Some e
          /\ Code e <> ErrCredentialDuplicate
          /\ Code e <> ErrCredentialNotFound)
  /\ ~ (exists e,
          fst (UpdateCredential "k1" (Mem.payload "gcp:XY") None Mem.w1)
          = Some e
          /\ Code e <> ErrCredentialDuplicate
          /\ Code e <> ErrCredentialNotFound).
Proof.
  split; [ vm_compute; reflexivity | ].
  split; intros (e & He & _ & Hkind); vm_compute in He;
    injection He as <-; apply Hkind; reflexivity.
Qed.

(** C6, as the code has it. An error built from a message alone has the
    code of Duplicate; so a create on the absent key "k2" whose decode fails
    with the message "Key exists: k2" returns the very error that a create
    on "k2" returns once the key exists. *)
Theorem generic_error_has_Duplicate_code :
  (forall m, Code (CredentialError_Message_only m) = ErrCredentialDuplicate)
  /\ fst (Exists "k2" Mem.w1) = false
  /\ fst (CreateCredential "aws" "k2" (Mem.payload "aws:CD")
            (Some (Mem.refusing "Key exists: k2")) Mem.w1)
     = Some {| Code := ErrCredentialDuplicate; Message := "Key exists: k2" |}
  /\ fst (CreateCredential "aws" "k2" (Mem.payload "aws:CD")
            (Some (Mem.refusing "Key exists: k2")) Mem.w1)
     = fst (CreateCredential "aws" "k2" (Mem.payload "aws:CD") None
              (snd (CreateCredential "aws" "k2" (Mem.payload "aws:CD") None
                      Mem.w1))).
Proof.
  split; [ reflexivity | ]. vm_compute. repeat split.
Qed.

(** Witness: "k1" does not exist in [w0] and "aws" is registered there. *)
Lemma CreateCredential_decodes_once_witness :
  fst (Exists "k1" Mem.w0) = false
  /\ credentialers Mem.w0 !! "aws" = Some (Mem.empty "aws")
  /\ CreateCredential "aws" "k1" (Mem.payload "aws:AB") None Mem.w0
     = (None,
        stepped Mem.w0 {["k1" := list_byte_of_string "aws:AB"]}
          [EvStoreGet (CredentialsID_of "k1") Mem.base; EvMapRead "aws";
           EvReadAll;
           EvUnmarshal (list_byte_of_string "aws:AB") (Mem.empty "aws" tt);
           EvStoreSave (CredentialsID_of "k1")
             {| Mem.shape := "aws"; Mem.provisioner := "aws";
                Mem.body := list_byte_of_string "AB" |}])
  /\ CreateCredential "aws" "k1" (Mem.payload "garbage") None Mem.w0
     = (Some {| Code := 0; Message := "malformed payload" |},
        logged Mem.w0
          [EvStoreGet (CredentialsID_of "k1") Mem.base; EvMapRead "aws";
           EvReadAll;
           EvUnmarshal (list_byte_of_string "garbage") (Mem.empty "aws" tt)]).
Proof.
  assert (Hex : fst (Exists "k1" Mem.w0) = false) by (vm_compute; reflexivity).
  assert (Hf : credentialers Mem.w0 !! "aws" = Some (Mem.empty "aws"))
    by (vm_compute; reflexivity).
  destruct (CreateCredential_decodes_once "aws" "k1" (Mem.payload "aws:AB")
              None Mem.w0 (Mem.empty "aws") Hex Hf) as [_ Hgood].
  destruct (Hgood (list_byte_of_string "aws:AB") ltac:(vm_compute; reflexivity))
    as [_ Hsave].
  destruct (CreateCredential_decodes_once "aws" "k1" (Mem.payload "garbage")
              None Mem.w0 (Mem.empty "aws") Hex Hf) as [_ Hbad].
  destruct (Hbad (list_byte_of_string "garbage") ltac:(vm_compute; reflexivity))
    as [Hdec _].
  split; [ exact Hex | ]. split; [ exact Hf | ]. split.
  - rewrite (Hsave {| Mem.shape := "aws"; Mem.provisioner := "aws";
                      Mem.body := list_byte_of_string "AB" |}
               ltac:(vm_compute; reflexivity)).
    vm_compute. reflexivity.
  - exact (Hdec "malformed payload" ltac:(vm_compute; reflexivity)).
Defined.

(** Witness: the create that leads from [w0] to [w1] returned nil. *)
Lemma nil_only_after_Save_witness :
  CreateCredential "aws" "k1" (Mem.payload "aws:AB") None Mem.w0 = (None, Mem.w1)
  /\ exists cred s es,
       store_Save (CredentialsID_of "k1") cred s = (None, store Mem.w1)
       /\ trace Mem.w1
          = trace Mem.w0 ++ es ++ [EvStoreSave (CredentialsID_of "k1") cred]
       /\ Forall writes_nothing es
       /\ credentialers Mem.w1 = credentialers Mem.w0.
Proof.
  assert (Hnil : CreateCredential "aws" "k1" (Mem.payload "aws:AB") None
                   Mem.w0 = (None, Mem.w1)) by (vm_compute; reflexivity).
  split; [ exact Hnil | ].
  exact (nil_only_after_Save "aws" "k1" (Mem.payload "aws:AB") None
           Mem.w0 Mem.w1 (or_introl Hnil)).
Defined.

(** Witness: after that create, and after an update of "k1" in [w1]. *)
Lemma success_makes_key_exist_witness :
  UpdateCredential "k1" (Mem.payload "azure:XY") None Mem.w1
  = (None, snd (UpdateCredential "k1" (Mem.payload "azure:XY") None Mem.w1))
  /\ fst (Exists "k1"
            (snd (UpdateCredential "k1" (Mem.payload "azure:XY") None Mem.w1)))
     = true
  /\ fst (CreateCredential "aws" "k1" (Mem.payload "aws:AB") None
            (snd (UpdateCredential "k1" (Mem.payload "azure:XY") None Mem.w1)))
     = Some {| Code := ErrCredentialDuplicate; Message := "Key exists: k1" |}.
Proof.
  assert (Hnil : UpdateCredential "k1" (Mem.payload "azure:XY") None Mem.w1
                 = (None, snd (UpdateCredential "k1" (Mem.payload "azure:XY")
                                 None Mem.w1)))
    by (vm_compute; reflexivity).
  destruct (success_makes_key_exist "k1" Mem.w1 _
              (or_intror (ex_intro _ (Mem.payload "azure:XY")
                            (ex_intro _ None Hnil))))
    as (Hex & Hdup & _).
  split; [ exact Hnil | ]. split; [ exact Hex | ].
  exact (Hdup "aws" (Mem.payload "aws:AB") None).
Defined.

(** Witness: two factories registered as "aws" in the empty world. *)
Lemma RegisterCredentialer_last_wins_witness :
  lock Mem.nothing = false
  /\ exists w1 w2,
       RegisterCredentialer "aws" (Mem.empty "old") Mem.nothing = Some w1
       /\ RegisterCredentialer "aws" (Mem.empty "aws") w1 = Some w2
       /\ credentialers w2
          = <["aws" := Mem.empty "aws"]> (credentialers Mem.nothing)
       /\ lock w2 = false
       /\ store w2 = store Mem.nothing
       /\ fst (NewCredential "aws" (NewCredentials (store Mem.w1) w2))
          = Ok (Mem.empty "aws" tt).
Proof.
  split; [ reflexivity | ].
  exact (RegisterCredentialer_last_wins "aws" (Mem.empty "old")
           (Mem.empty "aws") Mem.nothing (store Mem.w1) eq_refl).
Defined.

(** Witness: "aws" and "azure" registered in the empty world, in either
    order. *)
Lemma RegisterCredentialer_other_names_witness :
  "aws" <> "azure"
  /\ lock Mem.nothing = false
  /\ exists w1 w2 w1' w2',
       RegisterCredentialer "aws" (Mem.empty "aws") Mem.nothing = Some w1
       /\ fst (NewCredential "azure" w1) = fst (NewCredential "azure" Mem.nothing)
       /\ RegisterCredentialer "azure" (Mem.empty "azure") w1 = Some w2
       /\ RegisterCredentialer "azure" (Mem.empty "azure") Mem.nothing = Some w1'
       /\ RegisterCredentialer "aws" (Mem.empty "aws") w1' = Some w2'
       /\ credentialers w2 = credentialers w2'
       /\ fst (NewCredential "aws" w2) = Ok (Mem.empty "aws" tt)
       /\ fst (NewCredential "azure" w2) = Ok (Mem.empty "azure" tt).
Proof.
  assert (Hne : "aws" <> "azure") by discriminate.
  split; [ exact Hne | ]. split; [ reflexivity | ].
  exact (RegisterCredentialer_other_names "aws" "azure" (Mem.empty "aws")
           (Mem.empty "azure") Mem.nothing Hne eq_refl).
Defined.
